(** * clang-tidy-to-junit: the line classifier and the JUnit serializer

    A shallow embedding of [src/clang-tidy-to-junit.py].  Python text is
    modelled as [string] whose characters are the code points 0..255;
    the three regular expressions of [ClangTidyConverter] are kept as
    syntax and run by a small backtracking matcher with the semantics
    of Python's [re] module on the constructs the patterns use. *)

From Stdlib Require Import Bool Arith Lia List ZArith.
From Stdlib Require Import Ascii String DecimalString.
From Stdlib Require Import Sorting.Sorted Structures.OrderedTypeEx.
From Stdlib Require Import DecimalZ Permutation.
Import ListNotations.

Local Open Scope list_scope.
Local Open Scope string_scope.

(** ** Python strings *)

Module PyStr.

(** The line feed and the double quote, by code. *)
Definition LF : ascii := "010"%char.
Definition nl : string := String LF EmptyString.
Definition dq : string := String "034"%char EmptyString.

(** [len(s)] and [s[n:]]. *)
Definition len (s : string) : nat := String.length s.

Fixpoint drop (n : nat) (s : string) : string :=
  match n, s with
  | S n', String _ s' => drop n' s'
  | _, _ => s
  end.

Fixpoint take (n : nat) (s : string) : string :=
  match n, s with
  | S n', String c s' => String c (take n' s')
  | _, _ => EmptyString
  end.

(** [sep.join(ls)]. *)
Definition join (sep : string) (ls : list string) : string :=
  String.concat sep ls.

(** [s.replace(old, new)] for a non-empty [old]: scan from the left;
    where [old] starts, emit [new] and skip [len(old)] characters
    ([skip] counts the characters of the occurrence still to pass). *)
Fixpoint replace_scan (old new : string) (skip : nat) (s : string) : string :=
  match s with
  | EmptyString => EmptyString
  | String a s' =>
      match skip with
      | S k => replace_scan old new k s'
      | O =>
          if String.prefix old s
          then new ++ replace_scan old new (len old - 1) s'
          else String a (replace_scan old new 0 s')
      end
  end.

(** With an empty [old], Python puts [new] before every character
    and at the end. *)
Fixpoint interleave (new : string) (s : string) : string :=
  match s with
  | EmptyString => new
  | String a s' => new ++ String a (interleave new s')
  end.

Definition replace (old new : string) (s : string) : string :=
  match old with
  | EmptyString => interleave new s
  | String _ _ => replace_scan old new 0 s
  end.

(** [str(n)] for a length and for an [int]. *)
Definition str_of_nat (n : nat) : string :=
  NilEmpty.string_of_uint (Nat.to_uint n).

Definition str_of_Z (z : Z) : string :=
  NilEmpty.string_of_int (Z.to_int z).

(** Decimal digits [0-9]. *)
Definition is_digit (c : ascii) : bool :=
  let n := nat_of_ascii c in ((48 <=? n) && (n <=? 57))%nat.

Definition digit_val (c : ascii) : Z := Z.of_nat (nat_of_ascii c - 48).

Fixpoint all_chars (p : ascii -> bool) (s : string) : bool :=
  match s with
  | EmptyString => true
  | String c s' => p c && all_chars p s'
  end.

Fixpoint digits_val (acc : Z) (s : string) : Z :=
  match s with
  | EmptyString => acc
  | String c s' => digits_val (10 * acc + digit_val c)%Z s'
  end.

(** [int(s)]: [Some] of the value on a non-empty run of decimal
    digits; [None] stands for [ValueError].  (Python also accepts a
    sign, surrounding blanks and underscores; the converter never
    passes such text, so the model refuses it.) *)
Definition int (s : string) : option Z :=
  match s with
  | EmptyString => None
  | String _ _ => if all_chars is_digit s then Some (digits_val 0 s) else None
  end.

End PyStr.

Import PyStr.

(** ** Regular expressions, as Python's [re] runs them *)

Module Re.

(** The constructs the converter's patterns use.  [Plus p] is a
    greedy [X+] over a one-character class [X]. *)
Inductive regex : Type :=
| Chr (c : ascii)
| Cls (p : ascii -> bool)
| Plus (p : ascii -> bool)
| Cat (r1 r2 : regex)
| Grp (n : nat) (r : regex)
| Bos
| Eos.

(** Captured groups, the most recent first. *)
Definition groups : Type := list (nat * string).

Fixpoint group (g : groups) (n : nat) : string :=
  match g with
  | [] => EmptyString
  | (m, w) :: g' => if Nat.eqb m n then w else group g' n
  end.

Definition cont : Type := string -> groups -> option groups.

(** Zero or more characters of the class, longest first. *)
Fixpoint star (p : ascii -> bool) (k : cont) (s : string) (g : groups)
  : option groups :=
  match s with
  | String c s' =>
      if p c then
        match star p k s' g with
        | Some r => Some r
        | None => k s g
        end
      else k s g
  | EmptyString => k s g
  end.

(** [exec total r k s g]: match [r] at the head of [s], the rest of a
    subject of [total] characters, then continue with [k]; on failure
    of [k] the next alternative is tried. *)
Fixpoint exec (total : nat) (r : regex) (k : cont) (s : string) (g : groups)
  : option groups :=
  match r with
  | Chr c =>
      match s with
      | String a s' => if Ascii.eqb a c then k s' g else None
      | EmptyString => None
      end
  | Cls p =>
      match s with
      | String a s' => if p a then k s' g else None
      | EmptyString => None
      end
  | Plus p =>
      match s with
      | String a s' => if p a then star p k s' g else None
      | EmptyString => None
      end
  | Cat r1 r2 => exec total r1 (exec total r2 k) s g
  | Grp n r1 =>
      exec total r1 (fun s' g' => k s' ((n, take (len s - len s') s) :: g')) s g
  | Bos => if Nat.eqb (len s) total then k s g else None
  | Eos =>
      match s with
      | EmptyString => k s g
      | String a EmptyString => if Ascii.eqb a LF then k s g else None
      | String _ (String _ _) => None
      end
  end.

Definition accept : cont := fun _ g => Some g.

(** [pattern.match(s)]. *)
Definition rmatch (r : regex) (s : string) : option groups :=
  exec (len s) r accept s [].

(** The scan of [pattern.search]: the leftmost start that matches. *)
Fixpoint scan (total : nat) (r : regex) (s : string) : option groups :=
  match exec total r accept s [] with
  | Some g => Some g
  | None =>
      match s with
      | String _ s' => scan total r s'
      | EmptyString => None
      end
  end.

(** [pattern.search(s, pos)]: the scan starts at index [pos]. *)
Definition search (r : regex) (s : string) (pos : nat) : option groups :=
  scan (len s) r (drop pos s).

(** Character classes ([str] patterns are Unicode-aware; here on the
    code points 0..255). *)
Definition in_range (lo hi : nat) (c : ascii) : bool :=
  let n := nat_of_ascii c in ((lo <=? n) && (n <=? hi))%nat.

Definition is_char (a c : ascii) : bool := Ascii.eqb c a.

(** [\d]: decimal digits. *)
Definition cls_d : ascii -> bool := is_digit.

(** [\w]: alphanumeric or underscore.  Beyond ASCII, the Latin-1
    letters and the superscript digits and fractions are
    alphanumeric for Python. *)
Definition cls_w (c : ascii) : bool :=
  in_range 48 57 c || in_range 65 90 c || in_range 97 122 c
  || is_char "_" c
  || is_char "170" c || is_char "178" c || is_char "179" c
  || is_char "181" c || is_char "185" c || is_char "186" c
  || in_range 188 190 c
  || in_range 192 214 c || in_range 216 246 c || in_range 248 255 c.

(** [.]: anything but a line feed. *)
Definition cls_dot (c : ascii) : bool := negb (Ascii.eqb c LF).

(** [[\w\/\.\-\ ]] and [[\w\-,\.]]. *)
Definition cls_path (c : ascii) : bool :=
  cls_w c || is_char "/" c || is_char "." c || is_char "-" c || is_char " " c.

Definition cls_tag (c : ascii) : bool :=
  cls_w c || is_char "-" c || is_char "," c || is_char "." c.

End Re.

Import Re.

Declare Scope re_scope.
Delimit Scope re_scope with re.
Infix ";;" := Cat (at level 61, right associativity) : re_scope.

(** ** The converter *)

(** [ErrorDescription], the named tuple kept for each diagnostic. *)
Record ErrorDescription : Type := mkErrorDescription {
  file : string;
  line : Z;
  column : Z;
  error : string;
  error_identifier : string;
  description : string
}.

Local Open Scope re_scope.

(** [^([\w\/\.\-\ ]+):(\d+):(\d+): (.+) (\[[\w\-,\.]+\])$] *)
Definition error_regex : regex :=
  Bos ;; Grp 1 (Plus cls_path) ;; Chr ":" ;; Grp 2 (Plus cls_d) ;; Chr ":" ;;
  Grp 3 (Plus cls_d) ;; Chr ":" ;; Chr " " ;; Grp 4 (Plus cls_dot) ;; Chr " " ;;
  Grp 5 (Chr "[" ;; Plus cls_tag ;; Chr "]") ;; Eos.

(** [:\d+:\d+:] *)
Definition start_regex : regex :=
  Chr ":" ;; Plus cls_d ;; Chr ":" ;; Plus cls_d ;; Chr ":".

(** [\[[\w\-,\.]+\]$] *)
Definition main_error_identifier : regex :=
  Chr "[" ;; Plus cls_tag ;; Chr "]" ;; Eos.

Local Close Scope re_scope.

(** [re.M], the flag [MULTILINE], is the integer 8. *)
Definition re_M : nat := 8.

(** A converter instance holds [basename] only: [errors] is an
    attribute of the class, one list for the whole process. *)
Record ClangTidyConverter : Type := mkConverter {
  basename : string
}.

(** What outlives a call: the class attribute [ClangTidyConverter.errors]
    and the warnings handed to [logging]. *)
Record Process : Type := mkProcess {
  errors : list ErrorDescription;
  warnings : list (list string)
}.

Definition fresh_process : Process := mkProcess [] [].

(** Calls either return or raise. *)
Inductive exn : Type := ValueError.

Inductive outcome (A : Type) : Type :=
| Done (a : A)
| Raised (e : exn).
Arguments Done {A} a.
Arguments Raised {A} e.

Definition bind {A B : Type} (m : outcome A) (f : A -> outcome B) : outcome B :=
  match m with
  | Done a => f a
  | Raised e => Raised e
  end.

Definition checked {A : Type} (o : option A) : outcome A :=
  match o with
  | Some a => Done a
  | None => Raised ValueError
  end.

Notation "'do' x <- m ; f" := (bind m (fun x => f))
  (at level 10, x name, m at level 100, f at level 200).

Definition matched (m : option groups) : bool :=
  match m with Some _ => true | None => false end.

Definition logging_warning (error_array : list string) (p : Process) : Process :=
  mkProcess (errors p) (warnings p ++ [error_array])%list.

Definition errors_append (e : ErrorDescription) (p : Process) : Process :=
  mkProcess (errors p ++ [e])%list (warnings p).

(** [process_error(self, error_array)] *)
Definition process_error (self : ClangTidyConverter) (error_array : list string)
  (p : Process) : outcome Process :=
  match error_array with
  | [] => Done p
  | first :: rest =>
      match rmatch error_regex first with
      | None => Done (logging_warning error_array p)
      | Some result =>
          let file_path := replace (basename self) EmptyString (group result 1) in
          do l <- checked (int (group result 2));
          do c <- checked (int (group result 3));
          Done (errors_append
                  (mkErrorDescription file_path l c (group result 4)
                     (group result 5) (join nl rest)) p)
      end
  end.

(** One turn of the loop of [convert] over [current_error]. *)
Definition convert_line (self : ClangTidyConverter) (ln : string)
  (st : list string * Process) : outcome (list string * Process) :=
  let (current_error, p) := st in
  if matched (search start_regex ln 0) then
    if matched (search main_error_identifier ln re_M) then
      do p' <- process_error self current_error p;
      Done ([ln], p')
    else Done ((current_error ++ [ln])%list, p)
  else if (0 <? List.length current_error)%nat then Done ((current_error ++ [ln])%list, p)
  else Done (current_error, p).

Fixpoint convert_lines (self : ClangTidyConverter) (input_file : list string)
  (st : list string * Process) : outcome (list string * Process) :=
  match input_file with
  | [] => Done st
  | ln :: more =>
      do st' <- convert_line self ln st;
      convert_lines self more st'
  end.

(** ** The serializer *)

(** [xml.sax.saxutils.escape(data, entities)] *)
Definition escape (data : string) (entities : list (string * string)) : string :=
  let data := replace "&" "&amp;" data in
  let data := replace ">" "&gt;" data in
  let data := replace "<" "&lt;" data in
  fold_left (fun s kv => replace (fst kv) (snd kv) s) entities data.

(** [sorted(l, key=lambda x: x.file)]: the stable sort by [file], as
    an insertion from the right that stops at the first key not below. *)
Fixpoint insert_by_file (x : ErrorDescription) (l : list ErrorDescription)
  : list ErrorDescription :=
  match l with
  | [] => [x]
  | y :: l' =>
      if (file y <? file x)%string then y :: insert_by_file x l'
      else x :: l
  end.

Fixpoint sorted (l : list ErrorDescription) : list ErrorDescription :=
  match l with
  | [] => []
  | x :: l' => insert_by_file x (sorted l')
  end.

(** [itertools.groupby(l, key=lambda x: x.file)]: the maximal runs of
    consecutive records with one [file]. *)
Fixpoint groupby (l : list ErrorDescription)
  : list (string * list ErrorDescription) :=
  match l with
  | [] => []
  | x :: l' =>
      match groupby l' with
      | (f, run) :: gs =>
          if (file x =? f)%string then (f, x :: run) :: gs
          else (file x, [x]) :: (f, run) :: gs
      | [] => [(file x, [x])]
      end
  end.

(** An attribute [name="value"]. *)
Definition attr (name value : string) : string :=
  name ++ "=" ++ dq ++ value ++ dq.

Definition write (text : string) (output_file : string) : string :=
  output_file ++ text.

Definition testsuites_open (error_count : nat) : string :=
  "<?xml " ++ attr "version" "1.0" ++ " " ++ attr "encoding" "UTF-8" ++ " ?>" ++ nl
  ++ "<testsuites " ++ attr "id" "1" ++ " " ++ attr "name" "Clang-Tidy"
  ++ " " ++ attr "tests" (str_of_nat error_count)
  ++ " " ++ attr "errors" (str_of_nat error_count)
  ++ " " ++ attr "failures" "0" ++ " " ++ attr "time" "0" ++ ">".

Definition testsuite_open (error_count : nat) (f : string) : string :=
  nl ++ "    <testsuite " ++ attr "errors" (str_of_nat error_count)
  ++ " " ++ attr "name" f
  ++ " " ++ attr "tests" (str_of_nat error_count)
  ++ " " ++ attr "failures" "0" ++ " " ++ attr "time" "0" ++ ">" ++ nl.

Definition testcase_id (e : ErrorDescription) : string :=
  "[" ++ str_of_Z (line e) ++ "/" ++ str_of_Z (column e) ++ "] "
  ++ error_identifier e.

Definition testcase (e : ErrorDescription) : string :=
  nl ++ "        <testcase " ++ attr "id" (testcase_id e)
  ++ " " ++ attr "name" (testcase_id e) ++ " " ++ attr "time" "0" ++ ">" ++ nl
  ++ "            <failure "
  ++ attr "message" (escape (error e) [(dq, "&quot;")]) ++ ">" ++ nl
  ++ escape (description e) [] ++ nl
  ++ "            </failure>" ++ nl
  ++ "        </testcase>".

Definition write_group (g : string * list ErrorDescription) (output_file : string)
  : string :=
  let (f, run) := g in
  let error_count := List.length run in
  let output_file := write (testsuite_open error_count f) output_file in
  let output_file :=
    fold_left (fun out e => write (testcase e) out) run output_file in
  write (nl ++ "    </testsuite>" ++ nl) output_file.

(** [print_junit_file(self, output_file)]: the text of [output_file]
    after the call. *)
Definition print_junit_file (p : Process) (output_file : string) : string :=
  let output_file := write (testsuites_open (List.length (errors p))) output_file in
  let sorted_errors := sorted (errors p) in
  let output_file :=
    fold_left (fun out g => write_group g out) (groupby sorted_errors) output_file in
  write ("</testsuites>" ++ nl) output_file.

(** [convert(self, input_file, output_file)]: the process afterwards
    and the text of [output_file]. *)
Definition convert (self : ClangTidyConverter) (input_file : list string)
  (output_file : string) (p : Process) : outcome (string * Process) :=
  do st <- convert_lines self input_file ([], p);
  let (current_error, p1) := st in
  do p2 <- (if (0 <? List.length current_error)%nat
            then process_error self current_error p1 else Done p1);
  Done (print_junit_file p2 output_file, p2).

(** The script: one converter, one conversion, in a fresh process. *)
Definition main (argv1 : string) (stdin : list string) : outcome (string * Process) :=
  convert (mkConverter argv1) stdin EmptyString fresh_process.



(** * The terms the properties are stated in *)

(** [parses total r w rest g g']: [r] matches the text [w] standing
    before [rest] in a subject of [total] characters, and takes the
    captured groups from [g] to [g']. *)
Inductive parses (total : nat) : regex -> string -> string -> groups -> groups -> Prop :=
| P_Chr c rest g :
    parses total (Chr c) (String c EmptyString) rest g g
| P_Cls (p : ascii -> bool) c rest g :
    p c = true -> parses total (Cls p) (String c EmptyString) rest g g
| P_Plus (p : ascii -> bool) c w rest g :
    p c = true -> all_chars p w = true ->
    parses total (Plus p) (String c w) rest g g
| P_Cat r1 r2 w1 w2 rest g g1 g2 :
    parses total r1 w1 (w2 ++ rest) g g1 ->
    parses total r2 w2 rest g1 g2 ->
    parses total (Cat r1 r2) (w1 ++ w2) rest g g2
| P_Grp n r w rest g g1 :
    parses total r w rest g g1 ->
    parses total (Grp n r) w rest g ((n, w) :: g1)
| P_Bos rest g :
    len rest = total -> parses total Bos EmptyString rest g g
| P_Eos rest g :
    rest = EmptyString \/ rest = nl -> parses total Eos EmptyString rest g g.

(** A non-empty run of characters of one class. *)
Definition run_of (p : ascii -> bool) (s : string) : Prop :=
  s <> EmptyString /\ all_chars p s = true.

(** The text of a diagnostic header, from its five parts and the
    line end [e]. *)
Definition header_line (path l c msg tag e : string) : string :=
  path ++ ":" ++ l ++ ":" ++ c ++ ": " ++ msg ++ " " ++ ("[" ++ tag ++ "]") ++ e.

Definition not_open_bracket (c : ascii) : bool := negb (Ascii.eqb c "[").

Section ClassifierTerms.

Variable self : ClangTidyConverter.

(** The record [process_error] builds from the groups of a match. *)
Definition record_of (g : groups) (rest : list string) : ErrorDescription :=
  mkErrorDescription
    (replace (basename self) EmptyString (group g 1))
    (digits_val 0 (group g 2)) (digits_val 0 (group g 3))
    (group g 4) (group g 5) (join nl rest).

(** The process after [process_error] has returned. *)
Definition sealed (error_array : list string) (p : Process) : Process :=
  match error_array with
  | [] => p
  | first :: rest =>
      match rmatch error_regex first with
      | None => logging_warning error_array p
      | Some g => errors_append (record_of g rest) p
      end
  end.

Definition is_header (ln : string) : bool := matched (rmatch error_regex ln).

(** The two tests that make a line open a new sequence. *)
Definition opens (ln : string) : bool :=
  matched (search start_regex ln 0)
  && matched (search main_error_identifier ln re_M).

(** The state after one turn of the loop. *)
Definition next (st : list string * Process) (ln : string)
  : list string * Process :=
  let (current_error, p) := st in
  if opens ln then ([ln], sealed current_error p)
  else
    match current_error with
    | [] => if matched (search start_regex ln 0) then ([ln], p) else ([], p)
    | _ :: _ => ((current_error ++ [ln])%list, p)
    end.

(** The process after the sealing at the end of the input. *)
Definition finish (st : list string * Process) : Process :=
  sealed (fst st) (snd st).

(** The records a sealing adds: one, or none. *)
Definition yield (error_array : list string) : list ErrorDescription :=
  match error_array with
  | [] => []
  | first :: rest =>
      match rmatch error_regex first with
      | None => []
      | Some g => [record_of g rest]
      end
  end.

End ClassifierTerms.

(** The character-wise map that [replace] comes to when [old] is the
    one character [c]. *)
Fixpoint replace_char (c : ascii) (t : string) (s : string) : string :=
  match s with
  | EmptyString => EmptyString
  | String a s' =>
      if Ascii.eqb a c then t ++ replace_char c t s'
      else String a (replace_char c t s')
  end.



Fixpoint map_chars (f : ascii -> string) (s : string) : string :=
  match s with
  | EmptyString => EmptyString
  | String c s' => f c ++ map_chars f s'
  end.

(** What an XML 1.0 parser admits as a character (here up to 255):
    tab, line feed, carriage return, and everything from the space on. *)
Definition xml_char (c : ascii) : bool :=
  let n := nat_of_ascii c in
  (Nat.eqb n 9 || Nat.eqb n 10 || Nat.eqb n 13 || (32 <=? n)%nat).



Definition read_char (c : ascii) (rest : option string) : option string :=
  option_map (String c) rest.




(** The order of [sorted]: [a] is not above [b]. *)
Definition file_le (a b : string) : Prop := (b <? a)%string = false.
Definition file_lt (a b : string) : Prop := (a <? b)%string = true.

Definition has_file (f : string) (e : ErrorDescription) : bool :=
  (file e =? f)%string.

Definition by_file (a b : ErrorDescription) : Prop := file_le (file a) (file b).

Definition group_key (g : string * list ErrorDescription) : string := fst g.
Definition group_run (g : string * list ErrorDescription) : list ErrorDescription := snd g.

(** Keys go up strictly from one group to the next. *)
Definition keys_ascend (a b : string * list ErrorDescription) : Prop :=
  file_lt (group_key a) (group_key b).

(** A group is not empty and holds records of its key only. *)
Definition well_grouped (g : string * list ErrorDescription) : Prop :=
  group_run g <> [] /\ Forall (fun e => file e = group_key g) (group_run g).

(** The texts of a list, one after the other. *)
Definition cat (l : list string) : string := fold_right String.append EmptyString l.

(** All that [write_group] writes for one group. *)
Definition group_text (g : string * list ErrorDescription) : string :=
  testsuite_open (List.length (snd g)) (fst g)
  ++ cat (map testcase (snd g))
  ++ nl ++ "    </testsuite>" ++ nl.

(** The inputs the examples run on. *)
Definition conv_foo : ClangTidyConverter := mkConverter "foo/".

Definition header1 : string := "foo/bar.cpp:10:5: variable unused [unused-var]" ++ nl.
Definition header2 : string := "foo/bar.cpp:20:1: missing return [missing-return]" ++ nl.
Definition detail1 : string := "  int x;" ++ nl.
Definition detail2 : string := "      ^" ++ nl.

Definition scenario : list string := [header1; detail1; detail2; nl; header2].






(** Two converters in one process, one conversion each. *)
Definition conv_a : ClangTidyConverter := mkConverter "a/".
Definition conv_b : ClangTidyConverter := mkConverter "b/".
Definition input_a : list string := ["a/x.c:1:1: first [t]" ++ nl].
Definition input_b : list string := ["b/y.c:2:2: second [u]" ++ nl].



Definition short_line : string := "a:1:2: [x]".



(** ** Terms of the further properties *)

(** The first test of the loop: [start_regex.search(line)] finds a match. *)
Definition file_related (ln : string) : bool := matched (search start_regex ln 0).

(** The line ends in a closing bracket, before its line feed if it
    has one. *)
Fixpoint closes (s : string) : bool :=
  match s with
  | EmptyString => false
  | String c s' =>
      match s' with
      | EmptyString => Ascii.eqb c "]"
      | String d s'' =>
          match s'' with
          | EmptyString => (Ascii.eqb c "]" && Ascii.eqb d LF) || Ascii.eqb d "]"
          | String _ _ => closes s'
          end
      end
  end.




(** What one character becomes in an escaped text body. *)
Definition content_entity (c : ascii) : string :=
  if Ascii.eqb c "&" then "&amp;"
  else if Ascii.eqb c ">" then "&gt;"
  else if Ascii.eqb c "<" then "&lt;"
  else String c EmptyString.

(** Neither [<] nor [>]. *)
Definition angle_free (c : ascii) : bool :=
  negb (Ascii.eqb c "<" || Ascii.eqb c ">").

Definition CR : ascii := "013"%char.

(** The character data a conforming XML 1.0 parser reports for the
    text [s] of an element.  Each of the five predefined entity
    references gives its character; a carriage return, alone or before
    a line feed, is read as one line feed; [None] where the text is not
    well formed: a [<], the end of a CDATA section, a character that is
    no [xml_char], or a [&] that starts none of the five references
    (numeric character references are left out: the serializer writes
    none). *)
Fixpoint content_text (skip : nat) (s : string) : option string :=
  match s with
  | EmptyString => Some EmptyString
  | String c s' =>
      match skip with
      | S k => content_text k s'
      | O =>
          if String.prefix "&amp;" s then read_char "&" (content_text 4 s')
          else if String.prefix "&lt;" s then read_char "<" (content_text 3 s')
          else if String.prefix "&gt;" s then read_char ">" (content_text 3 s')
          else if String.prefix "&quot;" s then read_char "034" (content_text 5 s')
          else if String.prefix "&apos;" s then read_char "'" (content_text 5 s')
          else if String.prefix "]]>" s then None
          else if Ascii.eqb c "&" || Ascii.eqb c "<" then None
          else if String.prefix (String CR nl) s then read_char LF (content_text 1 s')
          else if Ascii.eqb c CR then read_char LF (content_text 0 s')
          else if xml_char c then read_char c (content_text 0 s')
          else None
      end
  end.

(** The characters a text body gives back as they are: every
    [xml_char] but the carriage return. *)
Definition content_plain (c : ascii) : bool := xml_char c && negb (Ascii.eqb c CR).





(** Inputs of the examples. *)
Definition banner : list string := ["1 warning generated." ++ nl; nl].
Definition unclosed_line : string := "bar.cpp:3:1: note: declared here [tag" ++ nl.
Definition record_x : ErrorDescription :=
  mkErrorDescription "x.c" 1 1 "first" "[t]" EmptyString.
Definition record_y : ErrorDescription :=
  mkErrorDescription "y.c" 2 2 "second" "[u]" EmptyString.
Definition quoted_record : ErrorDescription :=
  mkErrorDescription "x.c" 1 1 "m" "[t]"
    ("  if (a < b && s == " ++ dq ++ "x" ++ dq ++ ")" ++ nl ++ String "009" "^" ++ nl).

(** * Facts about strings *)

Section StringFacts.

Lemma append_nil_r (s : string) : s ++ EmptyString = s.
Proof. induction s as [|c s IH]; simpl; [reflexivity | now rewrite IH]. Qed.

Lemma append_assoc (a b c : string) : (a ++ b) ++ c = a ++ (b ++ c).
Proof. induction a as [|x a IH]; simpl; [reflexivity | now rewrite IH]. Qed.

Lemma len_append (a b : string) : len (a ++ b) = len a + len b.
Proof. induction a as [|x a IH]; simpl; [reflexivity | unfold len in *; simpl; now rewrite IH]. Qed.

Lemma take_drop (n : nat) (s : string) : take n s ++ drop n s = s.
Proof.
  revert s; induction n as [|n IH]; intros [|c s]; simpl; try reflexivity.
  now rewrite IH.
Qed.

Lemma take_append_len (w rest : string) :
  take (len (w ++ rest) - len rest) (w ++ rest) = w.
Proof.
  rewrite len_append. replace (len w + len rest - len rest) with (len w) by lia.
  induction w as [|c w IH]; simpl.
  - destruct rest; reflexivity.
  - now rewrite IH.
Qed.

Lemma drop_append_le (n : nat) (u v : string) :
  n <= len u -> drop n (u ++ v) = drop n u ++ v.
Proof.
  revert u; induction n as [|n IH]; intros u Hn.
  - destruct u; simpl; [destruct v|]; reflexivity.
  - destruct u as [|c u]; simpl in *; [unfold len in Hn; simpl in Hn; lia|].
    apply IH. unfold len in *; simpl in Hn; lia.
Qed.

Lemma len_drop (n : nat) (s : string) : len (drop n s) = len s - n.
Proof.
  revert s; induction n as [|n IH]; intros [|c s]; simpl; try reflexivity.
  all: try (symmetry; apply Nat.sub_0_r).
  all: rewrite IH; reflexivity.
Qed.

(** Two splits of one string: the shorter head is a head of the longer. *)
Lemma append_eq_append (u1 v1 u2 v2 : string) :
  u1 ++ v1 = u2 ++ v2 -> len u1 <= len u2 ->
  exists x, u2 = u1 ++ x /\ v1 = x ++ v2.
Proof.
  revert u2; induction u1 as [|c u1 IH]; intros u2 H Hl.
  - exists u2. simpl in *. auto.
  - destruct u2 as [|d u2]; [unfold len in Hl; simpl in Hl; lia|].
    simpl in H. inversion H; subst.
    destruct (IH u2) as [x [-> ->]]; auto.
    + unfold len in *; simpl in Hl; lia.
    + exists x; auto.
Qed.

Lemma all_chars_append (p : ascii -> bool) (a b : string) :
  all_chars p (a ++ b) = all_chars p a && all_chars p b.
Proof.
  induction a as [|c a IH]; simpl; [reflexivity|].
  rewrite IH. now rewrite andb_assoc.
Qed.


Lemma prefix_true (a s : string) :
  String.prefix a s = true -> exists b, s = a ++ b.
Proof.
  revert s; induction a as [|c a IH]; intros s H.
  - exists s; reflexivity.
  - destruct s as [|d s]; simpl in H; [discriminate|].
    destruct (ascii_dec c d); [subst|discriminate].
    destruct (IH s H) as [b ->]. exists b; reflexivity.
Qed.

End StringFacts.

(** * What a match means *)

Module ReFacts.

Lemma star_sound p k s g x :
  star p k s g = Some x ->
  exists w rest, s = w ++ rest /\ all_chars p w = true /\ k rest g = Some x.
Proof.
  induction s as [|c s IH]; simpl; intros H.
  - exists EmptyString, EmptyString; auto.
  - destruct (p c) eqn:Hp.
    + destruct (star p k s g) as [r|] eqn:Hs.
      * inversion H; subst r.
        destruct (IH eq_refl) as (w & rest & -> & Hw & Hk).
        exists (String c w), rest; simpl; rewrite Hp, Hw; auto.
      * exists EmptyString, (String c s); auto.
    + exists EmptyString, (String c s); auto.
Qed.

Lemma star_complete p k w rest g :
  all_chars p w = true -> k rest g <> None -> star p k (w ++ rest) g <> None.
Proof.
  induction w as [|c w IH]; simpl; intros Hw Hk.
  - destruct rest as [|d rest]; simpl; auto.
    destruct (p d); auto.
    destruct (star p k rest g); [discriminate | auto].
  - apply andb_prop in Hw as [Hc Hw]. rewrite Hc.
    specialize (IH Hw Hk).
    destruct (star p k (w ++ rest) g); [discriminate | contradiction].
Qed.

(** A match of the engine is a parse. *)
Lemma exec_sound total r : forall k s g x,
  exec total r k s g = Some x ->
  exists w rest g', s = w ++ rest /\ parses total r w rest g g' /\ k rest g' = Some x.
Proof.
  induction r as [c|p|p|r1 IH1 r2 IH2|n r IH| |]; simpl; intros k s g x H.
  - destruct s as [|a s]; [discriminate|].
    destruct (Ascii.eqb_spec a c); [subst|discriminate].
    exists (String c EmptyString), s, g; repeat split; auto; constructor.
  - destruct s as [|a s]; [discriminate|].
    destruct (p a) eqn:Hp; [|discriminate].
    exists (String a EmptyString), s, g; repeat split; auto; now constructor.
  - destruct s as [|a s]; [discriminate|].
    destruct (p a) eqn:Hp; [|discriminate].
    destruct (star_sound _ _ _ _ _ H) as (w & rest & -> & Hw & Hk).
    exists (String a w), rest, g; repeat split; auto; now constructor.
  - destruct (IH1 _ _ _ _ H) as (w1 & rest1 & g1 & -> & P1 & H2).
    destruct (IH2 _ _ _ _ H2) as (w2 & rest & g2 & -> & P2 & Hk).
    exists (w1 ++ w2), rest, g2; repeat split; auto.
    + now rewrite append_assoc.
    + econstructor; eauto.
  - destruct (IH _ _ _ _ H) as (w & rest & g1 & -> & P1 & Hk).
    rewrite take_append_len in Hk.
    exists w, rest, ((n, w) :: g1); repeat split; auto; now constructor.
  - destruct (Nat.eqb_spec (len s) total); [|discriminate].
    exists EmptyString, s, g; repeat split; auto; now constructor.
  - destruct s as [|a [|b s]]; try discriminate.
    + exists EmptyString, EmptyString, g; repeat split; auto; constructor; auto.
    + destruct (Ascii.eqb_spec a LF); [subst|discriminate].
      exists EmptyString, nl, g; repeat split; auto; constructor; auto.
Qed.

(** Where a parse exists whose continuation succeeds, the engine
    finds a match (maybe another one). *)
Lemma exec_complete total r w rest g g' :
  parses total r w rest g g' ->
  forall k, k rest g' <> None -> exec total r k (w ++ rest) g <> None.
Proof.
  induction 1 as [c rest g|p c rest g Hp|p c w rest g Hp Hw
                 |r1 r2 w1 w2 rest g g1 g2 _ IH1 _ IH2
                 |n r w rest g g1 _ IH|rest g Ht|rest g He];
    intros k Hk; simpl.
  - now rewrite Ascii.eqb_refl.
  - now rewrite Hp.
  - rewrite Hp. now apply star_complete.
  - rewrite append_assoc. apply IH1. now apply IH2.
  - apply IH. now rewrite take_append_len.
  - subst total. now rewrite Nat.eqb_refl.
  - destruct He as [-> | ->]; simpl; auto.
Qed.

Lemma scan_sound total r s g :
  scan total r s = Some g ->
  exists u v, s = u ++ v /\ exec total r accept v [] = Some g.
Proof.
  induction s as [|c s IH]; simpl; intros H.
  - exists EmptyString, EmptyString; split; auto.
    simpl. destruct (exec total r accept EmptyString []); [auto|discriminate].
  - destruct (exec total r accept (String c s) []) eqn:E.
    + exists EmptyString, (String c s); split; auto. now rewrite E.
    + destruct (IH H) as (u & v & -> & Hv).
      exists (String c u), v; auto.
Qed.

Lemma scan_complete total r u v :
  exec total r accept v [] <> None -> scan total r (u ++ v) <> None.
Proof.
  intros Hv. induction u as [|c u IH]; simpl.
  - destruct v; simpl; destruct (exec total r accept _ []); congruence.
  - destruct (exec total r accept (String c (u ++ v)) []); [discriminate|exact IH].
Qed.

Lemma matched_true (m : option groups) : matched m = true <-> m <> None.
Proof. destruct m; simpl; split; congruence. Qed.

End ReFacts.

Import ReFacts.

(** * The three patterns *)

Section Patterns.

Lemma run_of_len p s : run_of p s -> 1 <= len s.
Proof. intros [Hn _]. destruct s; [congruence | unfold len; simpl; lia]. Qed.

Lemma run_of_cons (p : ascii -> bool) c w :
  p c = true -> all_chars p w = true -> run_of p (String c w).
Proof. intros Hc Hw; split; [discriminate | simpl; now rewrite Hc, Hw]. Qed.

Lemma parses_run total p s rest g :
  run_of p s -> parses total (Plus p) s rest g g.
Proof.
  intros [Hn Ha]. destruct s as [|c w]; [congruence|].
  simpl in Ha. apply andb_prop in Ha as [Hc Hw]. now constructor.
Qed.

Ltac invert_parses :=
  repeat match goal with
  | H : parses _ (Cat _ _) _ _ _ _ |- _ => inversion H; subst; clear H
  | H : parses _ (Grp _ _) _ _ _ _ |- _ => inversion H; subst; clear H
  | H : parses _ (Chr _) _ _ _ _ |- _ => inversion H; subst; clear H
  | H : parses _ (Plus _) _ _ _ _ |- _ => inversion H; subst; clear H
  | H : parses _ Bos _ _ _ _ |- _ => inversion H; subst; clear H
  | H : parses _ Eos _ _ _ _ |- _ => inversion H; subst; clear H
  end.

(** What [error_regex.match] has matched when it returns a match. *)
Lemma error_regex_inv ln g :
  rmatch error_regex ln = Some g ->
  exists path l c msg tag e,
    ln = header_line path l c msg tag e /\
    run_of cls_path path /\ run_of cls_d l /\ run_of cls_d c /\
    run_of cls_dot msg /\ run_of cls_tag tag /\
    (e = EmptyString \/ e = nl) /\
    g = [(5, "[" ++ tag ++ "]"); (4, msg); (3, c); (2, l); (1, path)].
Proof.
  unfold rmatch, error_regex. intros H.
  apply exec_sound in H. destruct H as (w & rest & g' & -> & P & Hk).
  unfold accept in Hk. inversion Hk; subst g'; clear Hk.
  invert_parses.
  match goal with
  | H : len ((String ?a ?wa ++ _ ++ String ?b ?wb ++ _ ++ String ?c ?wc ++ _ ++ _
              ++ String ?d ?wd ++ _ ++ (_ ++ String ?e ?we ++ _) ++ _) ++ _) = _ |- _ =>
      exists (String a wa), (String b wb), (String c wc),
             (String d wd), (String e we), rest; clear H
  end.
  split.
  { unfold header_line.
    repeat (rewrite ?append_assoc, ?append_nil_r; simpl).
    reflexivity. }
  repeat (split; [apply run_of_cons; assumption|]).
  split; [assumption | reflexivity].
Qed.

Lemma parses_start total l c rest g :
  run_of cls_d l -> run_of cls_d c ->
  parses total start_regex (":" ++ l ++ ":" ++ c ++ ":") rest g g.
Proof.
  intros Hl Hc. unfold start_regex.
  apply (P_Cat total _ _ ":" _ rest g g g); [constructor|].
  apply (P_Cat total _ _ l _ rest g g g); [now apply parses_run|].
  apply (P_Cat total _ _ ":" _ rest g g g); [constructor|].
  apply (P_Cat total _ _ c ":" rest g g g); [now apply parses_run|constructor].
Qed.

Lemma parses_tag total tag e g :
  run_of cls_tag tag -> e = EmptyString \/ e = nl ->
  parses total main_error_identifier ("[" ++ tag ++ "]" ++ EmptyString) e g g.
Proof.
  intros Ht He. unfold main_error_identifier.
  apply (P_Cat total _ _ "[" _ e g g g); [constructor|].
  apply (P_Cat total _ _ tag _ e g g g); [now apply parses_run|].
  apply (P_Cat total _ _ "]" EmptyString e g g g); constructor; auto.
Qed.

(** A line that [error_regex] matches passes both tests of the loop
    of [convert]: the same text holds [:digits:digits:], and its
    bracket tag starts at index 9 or later. *)
Lemma header_opens ln g :
  rmatch error_regex ln = Some g ->
  matched (search start_regex ln 0) = true /\
  matched (search main_error_identifier ln re_M) = true.
Proof.
  intros H.
  destruct (error_regex_inv _ _ H)
    as (path & l & c & msg & tag & e & -> & Hp & Hl & Hc & Hm & Ht & He & _).
  split; apply matched_true; unfold search.
  - replace (drop 0 (header_line path l c msg tag e))
      with (path ++ (":" ++ l ++ ":" ++ c ++ ":")
              ++ (" " ++ msg ++ " " ++ ("[" ++ tag ++ "]") ++ e)).
    + apply scan_complete. apply exec_complete with (g' := []).
      * now apply parses_start.
      * discriminate.
    + unfold header_line.
      repeat (rewrite ?append_assoc, ?append_nil_r; simpl).
      destruct path; reflexivity.
  - replace (header_line path l c msg tag e)
      with ((path ++ ":" ++ l ++ ":" ++ c ++ ": " ++ msg ++ " ")
              ++ (("[" ++ tag ++ "]" ++ EmptyString) ++ e)).
    + set (pre := path ++ ":" ++ l ++ ":" ++ c ++ ": " ++ msg ++ " ").
      assert (Hpre : re_M <= len pre).
      { unfold pre, re_M. repeat rewrite len_append.
        apply run_of_len in Hp, Hl, Hc, Hm.
        unfold len at 2 4 6 8. simpl. lia. }
      rewrite drop_append_le by exact Hpre.
      apply scan_complete. apply exec_complete with (g' := []).
      * now apply parses_tag.
      * discriminate.
    + unfold header_line.
      repeat (rewrite ?append_assoc, ?append_nil_r; simpl).
      reflexivity.
Qed.

(** What [main_error_identifier] has matched at the head of [v]. *)
Lemma tag_match_inv total v g :
  exec total main_error_identifier accept v [] = Some g ->
  exists tag e, v = "[" ++ tag ++ "]" ++ e /\ run_of cls_tag tag /\
                (e = EmptyString \/ e = nl).
Proof.
  unfold main_error_identifier. intros H.
  apply exec_sound in H. destruct H as (w & rest & g' & -> & P & _).
  invert_parses.
  match goal with
  | Hc : cls_tag ?c = true, Hw : all_chars cls_tag ?w = true |- _ =>
      exists (String c w), rest
  end.
  split; [|split; [now apply run_of_cons | assumption]].
  repeat (rewrite ?append_assoc, ?append_nil_r; simpl).
  reflexivity.
Qed.

Lemma all_chars_impl (p q : ascii -> bool) s :
  (forall c, p c = true -> q c = true) ->
  all_chars p s = true -> all_chars q s = true.
Proof.
  intros Hpq. induction s as [|c s IH]; simpl; [reflexivity|].
  intros H. apply andb_prop in H as [Hc Hs].
  now rewrite (Hpq _ Hc), IH.
Qed.

Lemma cls_tag_not_open c : cls_tag c = true -> not_open_bracket c = true.
Proof.
  unfold not_open_bracket. destruct (Ascii.eqb_spec c "["); [subst; discriminate | reflexivity].
Qed.

Lemma tag_tail_no_open tag e :
  run_of cls_tag tag -> e = EmptyString \/ e = nl ->
  all_chars not_open_bracket (tag ++ "]" ++ e) = true.
Proof.
  intros [_ Ht] He. rewrite all_chars_append.
  rewrite (all_chars_impl _ _ _ cls_tag_not_open Ht).
  destruct He as [-> | ->]; reflexivity.
Qed.

(** The bracket tag at the end of a line is found at one index only:
    a tag holds no [[], so no match starts inside another. *)
Lemma tag_match_unique total u1 v1 u2 v2 g1 g2 :
  u1 ++ v1 = u2 ++ v2 ->
  exec total main_error_identifier accept v1 [] = Some g1 ->
  exec total main_error_identifier accept v2 [] = Some g2 ->
  len u1 = len u2.
Proof.
  assert (ordered : forall a1 b1 a2 b2 h1 h2,
    a1 ++ b1 = a2 ++ b2 -> len a1 <= len a2 ->
    exec total main_error_identifier accept b1 [] = Some h1 ->
    exec total main_error_identifier accept b2 [] = Some h2 ->
    len a1 = len a2).
  { intros a1 b1 a2 b2 h1 h2 E L M1 M2.
    destruct (append_eq_append _ _ _ _ E L) as (x & -> & Hb).
    destruct (tag_match_inv _ _ _ M1) as (t1 & e1 & -> & Ht1 & He1).
    destruct (tag_match_inv _ _ _ M2) as (t2 & e2 & -> & Ht2 & He2).
    destruct x as [|a x]; [now rewrite append_nil_r|exfalso].
    simpl in Hb. inversion Hb as [[Ha Hx]].
    pose proof (tag_tail_no_open t1 e1 Ht1 He1) as Hno.
    simpl in Hno. rewrite Hx, all_chars_append in Hno. simpl in Hno.
    rewrite andb_false_r in Hno. discriminate. }
  intros E M1 M2.
  destruct (Nat.le_ge_cases (len u1) (len u2)) as [L|L].
  - eapply ordered; eauto.
  - symmetry. eapply ordered; eauto.
Qed.

(** From index 8 on, the scan misses a tag that starts earlier. *)
Lemma search_past_tag ln i g :
  i < re_M ->
  exec (len ln) main_error_identifier accept (drop i ln) [] = Some g ->
  search main_error_identifier ln re_M = None.
Proof.
  intros Hi Hm. unfold search.
  destruct (scan (len ln) main_error_identifier (drop re_M ln)) as [g'|] eqn:Hs;
    [exfalso|reflexivity].
  apply scan_sound in Hs. destruct Hs as (u & v & Hd & Hv).
  assert (E : (take re_M ln ++ u) ++ v = take i ln ++ drop i ln).
  { rewrite append_assoc, <- Hd. now rewrite !take_drop. }
  pose proof (tag_match_unique _ _ _ _ _ _ _ E Hv Hm) as L.
  destruct (tag_match_inv _ _ _ Hm) as (t & e & Hshape & Ht & _).
  assert (Hlen : 2 <= len (drop i ln)).
  { rewrite Hshape. apply run_of_len in Ht.
    change ("[" ++ t ++ "]" ++ e) with (String "[" (t ++ "]" ++ e)).
    change (len (String "[" (t ++ "]" ++ e))) with (S (len (t ++ "]" ++ e))).
    rewrite len_append. lia. }
  rewrite len_drop in Hlen.
  assert (L1 : len (take re_M ln ++ u) + len v = len ln).
  { rewrite <- len_append, append_assoc, <- Hd, take_drop. reflexivity. }
  assert (L2 : len (take i ln) + len (drop i ln) = len ln).
  { rewrite <- len_append, take_drop. reflexivity. }
  assert (L3 : len (take re_M ln) + len (drop re_M ln) = len ln).
  { rewrite <- len_append, take_drop. reflexivity. }
  rewrite len_drop in L2, L3. rewrite len_append in L1, L.
  unfold re_M in *. lia.
Qed.

End Patterns.

(** * The classifier never raises *)

Section Classifier.

Variable self : ClangTidyConverter.


Lemma int_run s : run_of cls_d s -> int s = Some (digits_val 0 s).
Proof.
  intros [Hn Ha]. destruct s as [|c s]; [congruence|].
  unfold int. unfold cls_d in Ha. now rewrite Ha.
Qed.

(** Groups 2 and 3 of a match are runs of decimal digits. *)
Lemma header_numbers ln g :
  rmatch error_regex ln = Some g ->
  run_of cls_d (group g 2) /\ run_of cls_d (group g 3).
Proof.
  intros H.
  destruct (error_regex_inv _ _ H)
    as (path & l & c & msg & tag & e & _ & _ & Hl & Hc & _ & _ & _ & ->).
  simpl. auto.
Qed.

Lemma process_error_sealed error_array p :
  process_error self error_array p = Done (sealed self error_array p).
Proof.
  unfold process_error, sealed.
  destruct error_array as [|first rest]; [reflexivity|].
  destruct (rmatch error_regex first) as [g|] eqn:Hm; [|reflexivity].
  destruct (header_numbers _ _ Hm) as [Hl Hc].
  rewrite (int_run _ Hl), (int_run _ Hc). reflexivity.
Qed.

Lemma convert_line_next ln st : convert_line self ln st = Done (next self st ln).
Proof.
  destruct st as [cur p]. unfold convert_line, next, opens.
  destruct (matched (search start_regex ln 0)); simpl.
  - destruct (matched (search main_error_identifier ln re_M)).
    + rewrite process_error_sealed. reflexivity.
    + destruct cur; reflexivity.
  - destruct cur; reflexivity.
Qed.

Lemma convert_lines_fold input : forall st,
  convert_lines self input st = Done (fold_left (next self) input st).
Proof.
  induction input as [|ln more IH]; intros st; simpl; [reflexivity|].
  rewrite convert_line_next. simpl. apply IH.
Qed.

Lemma convert_finish input output_file p :
  convert self input output_file p =
  let p2 := finish self (fold_left (next self) input ([], p)) in
  Done (print_junit_file p2 output_file, p2).
Proof.
  unfold convert. rewrite convert_lines_fold. cbn [bind].
  destruct (fold_left (next self) input ([], p)) as [cur p1]. unfold finish.
  destruct cur as [|first rest]; [reflexivity|].
  change (0 <? List.length (first :: rest))%nat with true. cbv iota.
  rewrite process_error_sealed. reflexivity.
Qed.

Lemma is_header_opens ln : is_header ln = true -> opens ln = true.
Proof.
  unfold is_header, opens. intros H.
  destruct (rmatch error_regex ln) as [g|] eqn:Hm; [|discriminate].
  destruct (header_opens _ _ Hm) as [-> ->]. reflexivity.
Qed.

(** ** What a run adds to [errors] *)

Lemma sealed_errors error_array p :
  errors (sealed self error_array p) = (errors p ++ yield self error_array)%list.
Proof.
  unfold sealed, yield. destruct error_array as [|first rest].
  - now rewrite app_nil_r.
  - destruct (rmatch error_regex first); simpl; [reflexivity | now rewrite app_nil_r].
Qed.


Lemma not_opens_not_header ln : opens ln = false -> is_header ln = false.
Proof.
  intros H. destruct (is_header ln) eqn:E; [|reflexivity].
  apply is_header_opens in E. congruence.
Qed.

(** [errors] only grows, at its end. *)
Lemma run_appends input : forall st,
  exists new,
    errors (finish self (fold_left (next self) input st)) = (errors (snd st) ++ new)%list.
Proof.
  induction input as [|ln more IH]; intros [cur p]; cbn [fold_left].
  - unfold finish; simpl. rewrite sealed_errors. eauto.
  - destruct (IH (next self (cur, p) ln)) as [new Hnew]. rewrite Hnew.
    unfold next. destruct (opens ln).
    + simpl. rewrite sealed_errors, <- app_assoc. eauto.
    + destruct cur; [destruct (matched _)|]; simpl; eauto.
Qed.




End Classifier.

(** * [str.replace] *)

Section ReplaceFacts.







Lemma replace_char_cons_neq c t a s :
  a <> c -> replace_char c t (String a s) = String a (replace_char c t s).
Proof. intros H. simpl. apply Ascii.eqb_neq in H. now rewrite H. Qed.

(** [replace] with a one-character [old] is the character-wise map. *)
Lemma replace_one_char c t s :
  replace (String c EmptyString) t s = replace_char c t s.
Proof.
  unfold replace. induction s as [|a s IH]; [reflexivity|].
  cbn [replace_scan replace_char String.prefix].
  destruct (ascii_dec c a) as [->|N].
  - rewrite Ascii.eqb_refl.
    change (len (String a EmptyString) - 1) with 0. rewrite IH.
    destruct s; reflexivity.
  - assert (N' : a <> c) by congruence.
    apply Ascii.eqb_neq in N'. rewrite N'. now rewrite IH.
Qed.

End ReplaceFacts.

(** * Escaping for an attribute value *)

Section EscapeFacts.


Lemma prefix_other_head a t c s :
  c <> a -> String.prefix (String a t) (String c s) = false.
Proof.
  intros N. simpl. destruct (ascii_dec a c); [congruence | reflexivity].
Qed.








End EscapeFacts.

(** * Sorting and grouping by [file] *)

Section SortFacts.

Lemma ltb_irrefl a : (a <? a)%string = false.
Proof.
  unfold String.ltb. replace (a ?= a)%string with Eq; [reflexivity|].
  symmetry. now apply String_as_OT.cmp_eq.
Qed.

Lemma file_lt_trans a b c : file_lt a b -> file_lt b c -> file_lt a c.
Proof.
  unfold file_lt, String.ltb. intros H1 H2.
  destruct (a ?= b)%string eqn:E1; try discriminate.
  destruct (b ?= c)%string eqn:E2; try discriminate.
  apply String_as_OT.cmp_lt in E1, E2.
  pose proof (String_as_OT.lt_trans _ _ _ E1 E2) as E3.
  apply String_as_OT.cmp_lt in E3. unfold String_as_OT.cmp in E3. now rewrite E3.
Qed.

Lemma file_le_cases a b : file_le a b -> a = b \/ file_lt a b.
Proof.
  unfold file_le, file_lt, String.ltb. intros H.
  rewrite String.compare_antisym in H.
  destruct (a ?= b)%string eqn:E; simpl in H; try discriminate.
  - left. now apply String.compare_eq_iff.
  - now right.
Qed.

Lemma file_lt_le a b : file_lt a b -> file_le a b.
Proof.
  unfold file_le, file_lt, String.ltb. intros H.
  rewrite String.compare_antisym.
  destruct (a ?= b)%string; try discriminate. reflexivity.
Qed.

Lemma file_le_lt_trans a b c : file_le a b -> file_lt b c -> file_lt a c.
Proof.
  intros H1 H2. destruct (file_le_cases _ _ H1) as [->|H]; [exact H2|].
  eapply file_lt_trans; eauto.
Qed.

Lemma file_le_trans a b c : file_le a b -> file_le b c -> file_le a c.
Proof.
  intros H1 H2. destruct (file_le_cases _ _ H2) as [<-|H]; [exact H1|].
  apply file_lt_le. eapply file_le_lt_trans; eauto.
Qed.

Lemma file_lt_neq a b : file_lt a b -> (a =? b)%string = false.
Proof.
  intros H. apply String.eqb_neq. intros ->.
  unfold file_lt in H. rewrite ltb_irrefl in H. discriminate.
Qed.

Lemma insert_by_file_filter f x l :
  filter (has_file f) (insert_by_file x l) = filter (has_file f) (x :: l).
Proof.
  induction l as [|y l IH]; [reflexivity|].
  cbn [insert_by_file]. destruct (file y <? file x)%string eqn:Hlt; [|reflexivity].
  cbn [filter] in *. rewrite IH. unfold has_file.
  destruct (String.eqb_spec (file x) f) as [Ex|]; [|reflexivity].
  destruct (String.eqb_spec (file y) f) as [Ey|]; [|reflexivity].
  rewrite Ex, <- Ey in Hlt. rewrite ltb_irrefl in Hlt. discriminate.
Qed.

(** [sorted] is stable: the records of one file keep their order. *)
Lemma sorted_filter f l :
  filter (has_file f) (sorted l) = filter (has_file f) l.
Proof.
  induction l as [|x l IH]; [reflexivity|].
  cbn [sorted]. rewrite insert_by_file_filter. cbn [filter]. now rewrite IH.
Qed.

Lemma insert_by_file_in e x l : In e (insert_by_file x l) <-> e = x \/ In e l.
Proof.
  induction l as [|y l IH]; simpl; [intuition|].
  destruct (file y <? file x)%string; simpl; rewrite ?IH; intuition.
Qed.

Lemma sorted_in e l : In e (sorted l) <-> In e l.
Proof.
  induction l as [|x l IH]; simpl; [reflexivity|].
  rewrite insert_by_file_in, IH. intuition.
Qed.

Lemma insert_by_file_forall (P : ErrorDescription -> Prop) x l :
  P x -> Forall P l -> Forall P (insert_by_file x l).
Proof.
  intros Hx Hl. apply Forall_forall. intros e He.
  apply insert_by_file_in in He as [->|He]; [exact Hx|].
  rewrite Forall_forall in Hl. now apply Hl.
Qed.

Lemma insert_by_file_sorted x l :
  StronglySorted by_file l -> StronglySorted by_file (insert_by_file x l).
Proof.
  induction 1 as [|y l Hl IH Hy]; cbn [insert_by_file].
  - repeat constructor.
  - destruct (file y <? file x)%string eqn:Hlt.
    + constructor; [exact IH|].
      apply insert_by_file_forall; [|exact Hy].
      now apply file_lt_le.
    + constructor; [now constructor|].
      constructor; [exact Hlt|].
      eapply Forall_impl; [|exact Hy].
      intros e He. unfold by_file in *. eapply file_le_trans; eauto.
Qed.

Lemma sorted_sorted l : StronglySorted by_file (sorted l).
Proof.
  induction l as [|x l IH]; cbn [sorted]; [constructor|].
  now apply insert_by_file_sorted.
Qed.

End SortFacts.

Section GroupFacts.

Lemma groupby_head x l :
  exists run gs, groupby (x :: l) = (file x, run) :: gs.
Proof.
  cbn [groupby]. destruct (groupby l) as [|[f run] gs]; [eauto|].
  destruct (String.eqb_spec (file x) f) as [<-|]; eauto.
Qed.

(** The groups, one after the other, are the list. *)
Lemma groupby_concat l : List.concat (map group_run (groupby l)) = l.
Proof.
  induction l as [|x l IH]; [reflexivity|].
  cbn [groupby]. destruct (groupby l) as [|[f run] gs].
  - simpl in *. now rewrite <- IH.
  - destruct (file x =? f)%string; simpl in *; now rewrite <- IH.
Qed.

Lemma groupby_well_grouped l : Forall well_grouped (groupby l).
Proof.
  induction l as [|x l IH]; [constructor|].
  cbn [groupby]. destruct (groupby l) as [|[f run] gs].
  - repeat constructor. discriminate.
  - inversion IH as [|? ? [Hne Hrun] Hgs]; subst.
    destruct (String.eqb_spec (file x) f) as [E|].
    + constructor; [|exact Hgs]. split; [discriminate|].
      constructor; [exact E | exact Hrun].
    + constructor; [|exact IH]. split; [discriminate|]. repeat constructor.
Qed.

Lemma groupby_ascend l :
  StronglySorted by_file l -> StronglySorted keys_ascend (groupby l).
Proof.
  induction 1 as [|x l Hl IH Hx]; [constructor|].
  cbn [groupby]. destruct (groupby l) as [|[f run] gs] eqn:Hg.
  - repeat constructor.
  - inversion IH as [|? ? Hgs Hf]; subst.
    destruct (String.eqb_spec (file x) f) as [E|N].
    + constructor; [exact Hgs | exact Hf].
    + assert (Hxf : file_lt (file x) f).
      { destruct l as [|y l']; [discriminate|].
        destruct (groupby_head y l') as (run' & gs' & Hh).
        rewrite Hh in Hg. inversion Hg; subst.
        inversion Hx as [|? ? Hxy _]; subst.
        destruct (file_le_cases _ _ Hxy); [contradiction | assumption]. }
      constructor; [exact IH|].
      constructor; [exact Hxf|].
      eapply Forall_impl; [|exact Hf].
      intros g Hgk. unfold keys_ascend in *. eapply file_lt_trans; eauto.
Qed.

Lemma filter_none {A} (q : A -> bool) l :
  Forall (fun e => q e = false) l -> filter q l = [].
Proof.
  induction 1 as [|e l He _ IH]; simpl; [reflexivity | now rewrite He].
Qed.

Lemma filter_all {A} (q : A -> bool) l :
  Forall (fun e => q e = true) l -> filter q l = l.
Proof.
  induction 1 as [|e l He _ IH]; simpl; [reflexivity | now rewrite He, IH].
Qed.

Lemma filter_concat {A} (q : A -> bool) (ls : list (list A)) :
  filter q (List.concat ls) = List.concat (map (filter q) ls).
Proof.
  induction ls as [|l ls IH]; simpl; [reflexivity|].
  now rewrite filter_app, IH.
Qed.

Lemma filter_other_group f g :
  well_grouped g -> (group_key g =? f)%string = false ->
  filter (has_file f) (group_run g) = [].
Proof.
  intros [_ Hrun] Hk. apply filter_none.
  eapply Forall_impl; [|exact Hrun].
  intros e He. unfold has_file. now rewrite He.
Qed.

(** With ascending keys, a group is all the records of its file. *)
Lemma group_is_filter gs :
  StronglySorted keys_ascend gs -> Forall well_grouped gs ->
  forall f run, In (f, run) gs ->
    filter (has_file f) (List.concat (map group_run gs)) = run.
Proof.
  induction 1 as [|g gs Hgs IH Hg]; intros Hw f run Hin; [contradiction|].
  inversion Hw as [|? ? Hwg Hwgs]; subst.
  cbn [map List.concat]. rewrite filter_app.
  destruct Hin as [->|Hin].
  - rewrite filter_all.
    + rewrite filter_concat.
      replace (List.concat (map (filter (has_file f)) (map group_run gs)))
        with (@nil ErrorDescription); [now rewrite app_nil_r|].
      clear IH Hgs Hw. induction gs as [|g' gs IHgs]; [reflexivity|].
      inversion Hg as [|? ? Hk Hrest]; inversion Hwgs as [|? ? Hw' Hws]; subst.
      cbn [map List.concat].
      rewrite (filter_other_group f g' Hw').
      * now apply IHgs.
      * rewrite String.eqb_sym. now apply file_lt_neq.
    + destruct Hwg as [_ Hrun]. eapply Forall_impl; [|exact Hrun].
      intros e He. unfold has_file. simpl in He. rewrite He. apply String.eqb_refl.
  - rewrite (filter_other_group f g Hwg).
    + now apply IH.
    + rewrite Forall_forall in Hg. specialize (Hg _ Hin).
      now apply file_lt_neq.
Qed.

End GroupFacts.

(** * The text of the report *)

Section ReportFacts.

Lemma fold_write {A} (f : A -> string) l : forall out,
  fold_left (fun o x => write (f x) o) l out = out ++ cat (map f l).
Proof.
  induction l as [|x l IH]; intros out; cbn [fold_left map cat fold_right].
  - now rewrite append_nil_r.
  - rewrite IH. unfold write. now rewrite append_assoc.
Qed.

Lemma write_group_text g out : write_group g out = out ++ group_text g.
Proof.
  destruct g as [f run]. unfold write_group, group_text. cbn [fst snd].
  rewrite fold_write. unfold write. now rewrite !append_assoc.
Qed.

Lemma fold_write_group gs : forall out,
  fold_left (fun o g => write_group g o) gs out = out ++ cat (map group_text gs).
Proof.
  induction gs as [|g gs IH]; intros out; cbn [fold_left map cat fold_right].
  - now rewrite append_nil_r.
  - rewrite IH, write_group_text. now rewrite append_assoc.
Qed.

Lemma print_junit_file_text p out :
  print_junit_file p out =
  out ++ testsuites_open (List.length (errors p))
      ++ cat (map group_text (groupby (sorted (errors p))))
      ++ "</testsuites>" ++ nl.
Proof.
  unfold print_junit_file.
  rewrite fold_write_group. unfold write. now rewrite !append_assoc.
Qed.

Lemma length_concat_runs (gs : list (string * list ErrorDescription)) :
  list_sum (map (fun g => List.length (snd g)) gs) =
  List.length (List.concat (map group_run gs)).
Proof.
  induction gs as [|g gs IH]; simpl; [reflexivity|].
  rewrite length_app, IH. reflexivity.
Qed.

Lemma sorted_length l : List.length (sorted l) = List.length l.
Proof.
  assert (ins : forall x l', List.length (insert_by_file x l') = S (List.length l')).
  { intros x l'. induction l' as [|y l' IH]; simpl; [reflexivity|].
    destruct (file y <? file x)%string; simpl; [now rewrite IH | reflexivity]. }
  induction l as [|x l IH]; simpl; [reflexivity|]. now rewrite ins, IH.
Qed.

End ReportFacts.

(** * The claims of the specification *)










(** Whatever [errors] holds when a conversion starts stays in it, and
    is counted in the report. *)
Lemma convert_keeps_errors self input output_file p :
  exists p' new,
    convert self input output_file p
      = Done (print_junit_file p' output_file, p') /\
    errors p' = (errors p ++ new)%list.
Proof.
  rewrite convert_finish. cbv zeta.
  destruct (run_appends self input ([], p)) as [new Hnew].
  eexists. exists new. split; [reflexivity | exact Hnew].
Qed.

(** C4 on the code: [errors] belongs to the class, so the conversion
    of a second converter starts from the records of the first and
    reports them: its report counts two tests for an input of one
    diagnostic. *)
Theorem C4_second_conversion_reports_the_first :
  exists out1 p1 out2 p2 ra rb,
    convert conv_a input_a EmptyString fresh_process = Done (out1, p1) /\
    convert conv_b input_b EmptyString p1 = Done (out2, p2) /\
    errors p1 = [ra] /\ file ra = "x.c" /\
    errors p2 = [ra; rb] /\ file rb = "y.c" /\
    String.prefix (testsuites_open 2) out2 = true.
Proof.
  do 6 eexists.
  split; [vm_compute; reflexivity|].
  split; [vm_compute; reflexivity|].
  repeat split; vm_compute; reflexivity.
Qed.

(** C5: the report holds one group for each [file] among the records,
    the groups come by ascending [file], and a group holds all the
    records of its file in the order they have in [errors]. *)
Theorem C5_one_group_per_file_ascending_and_stable :
  forall (p : Process) (output_file : string),
    let gs := groupby (sorted (errors p)) in
    print_junit_file p output_file =
      output_file ++ testsuites_open (List.length (errors p))
        ++ cat (map group_text gs) ++ "</testsuites>" ++ nl
    /\ StronglySorted (fun a b => (fst a <? fst b)%string = true) gs
    /\ (forall f, In f (map fst gs) <-> exists e, In e (errors p) /\ file e = f)
    /\ (forall f run, In (f, run) gs ->
          run = filter (fun e => (file e =? f)%string) (errors p)).
Proof.
  intros p output_file gs.
  pose proof (groupby_ascend _ (sorted_sorted (errors p))) as Hasc.
  pose proof (groupby_well_grouped (sorted (errors p))) as Hwell.
  pose proof (groupby_concat (sorted (errors p))) as Hcat.
  fold gs in Hasc, Hwell, Hcat.
  split; [apply print_junit_file_text|]. split; [exact Hasc|]. split.
  - intros f. split.
    + intros Hf. apply in_map_iff in Hf as ([k run] & <- & Hin).
      rewrite Forall_forall in Hwell. destruct (Hwell _ Hin) as [Hne Hrun].
      unfold group_run, group_key in *. cbn [fst snd] in *.
      destruct run as [|e run]; [congruence|].
      inversion Hrun as [|? ? He _]; subst.
      exists e. split; [|reflexivity].
      apply sorted_in. rewrite <- Hcat. apply in_concat.
      exists (e :: run). split; [|now left].
      apply in_map_iff. exists (file e, e :: run). auto.
    + intros (e & He & <-).
      apply sorted_in in He. rewrite <- Hcat in He.
      apply in_concat in He as (run & Hrun & Hin).
      apply in_map_iff in Hrun as ([k run'] & <- & Hg).
      rewrite Forall_forall in Hwell. destruct (Hwell _ Hg) as [_ Hall].
      rewrite Forall_forall in Hall. unfold group_run, group_key in *.
      cbn [fst snd] in *. rewrite (Hall _ Hin).
      apply in_map_iff. exists (k, run'). auto.
  - intros f run Hin.
    rewrite <- (group_is_filter gs Hasc Hwell f run Hin).
    rewrite Hcat. apply sorted_filter.
Qed.










(** C10: the bracket-tag test scans from index 8, the value of [re.M];
    a file-related line whose bracket tag matches at an index below 8
    does not open a sequence: it is put behind the pending lines, or
    becomes the first pending line when there is none. *)
Theorem C10_tag_before_index_8_does_not_open :
  forall self ln cur p i,
    matched (search start_regex ln 0) = true ->
    i < re_M ->
    matched (exec (len ln) main_error_identifier accept (drop i ln) []) = true ->
    search main_error_identifier ln re_M
      = scan (len ln) main_error_identifier (drop 8 ln)
    /\ matched (search main_error_identifier ln re_M) = false
    /\ convert_line self ln (cur, p) = Done ((cur ++ [ln])%list, p).
Proof.
  intros self ln cur p i Hs Hi Hm.
  destruct (exec (len ln) main_error_identifier accept (drop i ln) []) as [g|] eqn:E;
    [|discriminate].
  pose proof (search_past_tag ln i g Hi E) as Hnone.
  split; [reflexivity|]. split; [now rewrite Hnone|].
  unfold convert_line. now rewrite Hs, Hnone.
Qed.

Lemma C10_witness :
  matched (search start_regex short_line 0) = true /\
  7 < re_M /\
  matched (exec (len short_line) main_error_identifier accept (drop 7 short_line) [])
    = true /\
  convert_line conv_foo short_line ([header1], fresh_process)
    = Done ([header1; short_line], fresh_process).
Proof.
  assert (Hs : matched (search start_regex short_line 0) = true)
    by (vm_compute; reflexivity).
  assert (Hi : 7 < re_M) by (unfold re_M; lia).
  assert (Hm : matched (exec (len short_line) main_error_identifier accept
                          (drop 7 short_line) []) = true)
    by (vm_compute; reflexivity).
  split; [exact Hs|]. split; [exact Hi|]. split; [exact Hm|].
  exact (proj2 (proj2 (C10_tag_before_index_8_does_not_open
                         conv_foo short_line [header1] fresh_process 7 Hs Hi Hm))).
Defined.


(** * Further properties of the converter *)

Section Noise.

Variable self : ClangTidyConverter.

Lemma not_related_not_opens ln : file_related ln = false -> opens ln = false.
Proof. unfold file_related, opens. now intros ->. Qed.


Lemma run_skips_noise noise : forall p,
  Forall (fun l => file_related l = false) noise ->
  fold_left (next self) noise ([], p) = ([], p).
Proof.
  induction noise as [|ln noise IH]; intros p H; [reflexivity|].
  inversion H as [|? ? Hln Hnoise]; subst. cbn [fold_left].
  unfold next at 2. rewrite (not_related_not_opens _ Hln).
  unfold file_related in Hln. rewrite Hln. now apply IH.
Qed.

End Noise.

(** X1: lines without [:digits:digits:] that come before the first
    file-related line are dropped: the conversion is that of the rest
    of the input; and an input of such lines only adds no record and
    no warning, the report being that of the records held before. *)
Theorem X1_leading_noise_is_discarded :
  forall self noise rest output_file p,
    Forall (fun l => file_related l = false) noise ->
    convert self (noise ++ rest) output_file p = convert self rest output_file p
    /\ convert self noise output_file p = Done (print_junit_file p output_file, p).
Proof.
  intros self noise rest output_file p H. split.
  - rewrite !convert_finish. cbv zeta.
    now rewrite fold_left_app, run_skips_noise.
  - rewrite convert_finish. cbv zeta. now rewrite run_skips_noise.
Qed.

Lemma X1_witness :
  Forall (fun l => file_related l = false) banner /\
  convert conv_foo (banner ++ scenario) EmptyString fresh_process
    = convert conv_foo scenario EmptyString fresh_process /\
  main "foo/" banner = Done (print_junit_file fresh_process EmptyString, fresh_process).
Proof.
  assert (H : Forall (fun l => file_related l = false) banner)
    by (repeat constructor).
  split; [exact H|].
  exact (X1_leading_noise_is_discarded conv_foo banner scenario
           EmptyString fresh_process H).
Defined.

Section Brackets.

Lemma closes_cons c s :
  2 <= len s -> closes (String c s) = closes s.
Proof.
  destruct s as [|d [|d' s]]; unfold len; simpl; intros H; try lia. reflexivity.
Qed.

Lemma closes_end u e :
  e = EmptyString \/ e = nl -> closes (u ++ "]" ++ e) = true.
Proof.
  intros He. induction u as [|c u IH].
  - destruct He as [-> | ->]; reflexivity.
  - change (String c u ++ "]" ++ e) with (String c (u ++ "]" ++ e)).
    destruct (le_lt_dec 2 (len (u ++ "]" ++ e))) as [L|L].
    + now rewrite closes_cons.
    + rewrite len_append in L.
      destruct u as [|a u]; [|unfold len in L; simpl in L; lia].
      destruct He as [-> | ->]; [|unfold len in L; simpl in L; lia].
      simpl. now rewrite orb_true_r.
Qed.

End Brackets.

Lemma search_needs_close ln pos :
  closes ln = false -> search main_error_identifier ln pos = None.
Proof.
  intros Hc. unfold search.
  destruct (scan (len ln) main_error_identifier (drop pos ln)) as [g|] eqn:Hs;
    [exfalso|reflexivity].
  apply scan_sound in Hs. destruct Hs as (u & v & Hd & Hv).
  destruct (tag_match_inv _ _ _ Hv) as (t & e & -> & _ & He).
  assert (E : ln = (take pos ln ++ u ++ "[" ++ t) ++ "]" ++ e).
  { rewrite <- (take_drop pos ln) at 1. rewrite Hd.
    now rewrite !append_assoc. }
  rewrite E, closes_end in Hc by exact He. discriminate.
Qed.

(** X2: a line that does not end in a closing bracket never opens a
    sequence and is never a header: when it is file-related or a
    sequence is pending it is put behind the pending lines, otherwise
    it is dropped; the records and warnings are left as they are. *)
Theorem X2_line_without_closing_bracket_never_opens :
  forall self ln cur p,
    closes ln = false ->
    opens ln = false /\ is_header ln = false /\
    convert_line self ln (cur, p) =
      Done (if file_related ln || (0 <? List.length cur)%nat
            then (cur ++ [ln])%list else cur, p).
Proof.
  intros self ln cur p Hc.
  pose proof (search_needs_close ln re_M Hc) as Hs.
  assert (Ho : opens ln = false).
  { unfold opens. rewrite Hs. apply andb_false_r. }
  split; [exact Ho|]. split; [now apply not_opens_not_header|].
  unfold convert_line, file_related. rewrite Hs.
  destruct (matched (search start_regex ln 0)); [reflexivity|].
  cbn [matched orb]. destruct (0 <? List.length cur)%nat; reflexivity.
Qed.

Lemma X2_witness :
  closes unclosed_line = false /\
  convert_line conv_foo unclosed_line ([header1], fresh_process)
    = Done ([header1; unclosed_line], fresh_process).
Proof.
  assert (H : closes unclosed_line = false) by (vm_compute; reflexivity).
  split; [exact H|].
  exact (proj2 (proj2 (X2_line_without_closing_bracket_never_opens
                         conv_foo unclosed_line [header1] fresh_process H))).
Defined.

Section HeaderRoundTrip.






End HeaderRoundTrip.



Section RecordShape.





End RecordShape.


Section Accounting.

Variable self : ClangTidyConverter.




End Accounting.


Section Warnings.

Variable self : ClangTidyConverter.
Variable seen : string -> Prop.



End Warnings.


Section Append.

Variable self : ClangTidyConverter.


End Append.




Section Interleaving.

Lemma file_lt_irrefl a : ~ file_lt a a.
Proof. unfold file_lt. rewrite ltb_irrefl. discriminate. Qed.

(** Two lists of groups with ascending keys, the same keys and the
    same runs are one list. *)
Lemma groups_unique gs1 : forall gs2,
  StronglySorted keys_ascend gs1 -> StronglySorted keys_ascend gs2 ->
  (forall f, In f (map group_key gs1) <-> In f (map group_key gs2)) ->
  (forall f r1 r2, In (f, r1) gs1 -> In (f, r2) gs2 -> r1 = r2) ->
  gs1 = gs2.
Proof.
  induction gs1 as [|[k1 r1] t1 IH]; intros [|[k2 r2] t2] S1 S2 Hk Hr.
  - reflexivity.
  - exfalso. apply (proj2 (Hk k2)). now left.
  - exfalso. apply (proj1 (Hk k1)). now left.
  - inversion S1 as [|? ? S1' F1]; inversion S2 as [|? ? S2' F2]; subst.
    rewrite Forall_forall in F1, F2.
    assert (above1 : forall f, In f (map group_key t1) -> file_lt k1 f).
    { intros f Hf. apply in_map_iff in Hf as (g & <- & Hg). exact (F1 g Hg). }
    assert (above2 : forall f, In f (map group_key t2) -> file_lt k2 f).
    { intros f Hf. apply in_map_iff in Hf as (g & <- & Hg). exact (F2 g Hg). }
    assert (Ek : k1 = k2).
    { destruct (proj1 (Hk k1) (or_introl eq_refl)) as [E|H12]; [now symmetry|].
      destruct (proj2 (Hk k2) (or_introl eq_refl)) as [E|H21]; [exact E|].
      exfalso. apply (file_lt_irrefl k1).
      eapply file_lt_trans; [apply above1, H21 | apply above2, H12]. }
    subst k2.
    assert (Er : r1 = r2) by (apply (Hr k1); now left).
    subst r2. f_equal. apply IH; auto.
    + intros f. split; intros Hf.
      * destruct (proj1 (Hk f) (or_intror Hf)) as [E|H]; [|exact H].
        exfalso. cbn [group_key fst] in E. subst f.
        exact (file_lt_irrefl _ (above1 _ Hf)).
      * destruct (proj2 (Hk f) (or_intror Hf)) as [E|H]; [|exact H].
        exfalso. cbn [group_key fst] in E. subst f.
        exact (file_lt_irrefl _ (above2 _ Hf)).
    + intros f r r' H1 H2. apply (Hr f); now right.
Qed.

(** The groups of a collection are its non-empty filters by file. *)
Lemma group_iff_filter l f run :
  In (f, run) (groupby (sorted l)) <->
  run = filter (has_file f) l /\ run <> [].
Proof.
  pose proof (groupby_ascend _ (sorted_sorted l)) as Hasc.
  pose proof (groupby_well_grouped (sorted l)) as Hwell.
  pose proof (groupby_concat (sorted l)) as Hcat.
  split.
  - intros Hin. split.
    + rewrite <- (group_is_filter _ Hasc Hwell f run Hin), Hcat.
      apply sorted_filter.
    + rewrite Forall_forall in Hwell. exact (proj1 (Hwell _ Hin)).
  - intros [-> Hne].
    destruct (filter (has_file f) l) as [|e rest] eqn:Hf; [congruence|].
    assert (He : In e (filter (has_file f) l)) by (rewrite Hf; now left).
    apply filter_In in He as [He Hfile]. unfold has_file in Hfile.
    apply String.eqb_eq in Hfile.
    apply sorted_in in He. rewrite <- Hcat in He.
    apply in_concat in He as (run & Hrun & Hin).
    apply in_map_iff in Hrun as ([k run'] & <- & Hg).
    pose proof Hwell as Hw. rewrite Forall_forall in Hw.
    destruct (Hw _ Hg) as [_ Hall]. rewrite Forall_forall in Hall.
    specialize (Hall _ Hin). cbn [group_key fst] in Hall.
    rewrite Hfile in Hall. subst k.
    pose proof (group_is_filter _ Hasc Hwell f run' Hg) as E.
    rewrite Hcat, sorted_filter, Hf in E. now rewrite E.
Qed.

Lemma groups_length l :
  list_sum (map (fun g => List.length (snd g)) (groupby (sorted l))) = List.length l.
Proof. rewrite length_concat_runs, groupby_concat. apply sorted_length. Qed.

End Interleaving.

(** X9: the report depends on the records of each file in their order
    and on nothing else: two collections that agree file by file give
    the same text, however the records of different files are mixed. *)
Theorem X9_report_depends_on_the_records_per_file :
  forall p1 p2 output_file,
    (forall f, filter (has_file f) (errors p1) = filter (has_file f) (errors p2)) ->
    print_junit_file p1 output_file = print_junit_file p2 output_file.
Proof.
  intros p1 p2 output_file H.
  assert (G : groupby (sorted (errors p1)) = groupby (sorted (errors p2))).
  { apply groups_unique.
    - apply groupby_ascend, sorted_sorted.
    - apply groupby_ascend, sorted_sorted.
    - intros f. split; intros Hf;
        apply in_map_iff in Hf as ([k run] & <- & Hin);
        apply group_iff_filter in Hin as [-> Hne];
        apply in_map_iff; cbn [group_key fst].
      + exists (k, filter (has_file k) (errors p2)). split; [reflexivity|].
        apply group_iff_filter. rewrite <- H. auto.
      + exists (k, filter (has_file k) (errors p1)). split; [reflexivity|].
        apply group_iff_filter. rewrite H. auto.
    - intros f r1 r2 H1 H2.
      apply group_iff_filter in H1 as [-> _]. apply group_iff_filter in H2 as [-> _].
      apply H. }
  rewrite !print_junit_file_text, G.
  now rewrite <- (groups_length (errors p1)), <- (groups_length (errors p2)), G.
Qed.

Lemma X9_witness :
  (forall f, filter (has_file f) [record_x; record_y]
             = filter (has_file f) [record_y; record_x]) /\
  print_junit_file (mkProcess [record_x; record_y] []) EmptyString
    = print_junit_file (mkProcess [record_y; record_x] []) EmptyString.
Proof.
  assert (H : forall f, filter (has_file f) [record_x; record_y]
                        = filter (has_file f) [record_y; record_x]).
  { intros f. unfold has_file, record_x, record_y. cbn [filter file].
    destruct (String.eqb_spec "x.c" f) as [<-|]; [reflexivity|].
    destruct (String.eqb_spec "y.c" f); reflexivity. }
  split; [exact H|].
  exact (X9_report_depends_on_the_records_per_file
           (mkProcess [record_x; record_y] []) (mkProcess [record_y; record_x] [])
           EmptyString H).
Defined.

Section Body.

(** The three passes of [escape] without entities amount to one
    character-wise map. *)
Lemma escape_body_map s : escape s [] = map_chars content_entity s.
Proof.
  unfold escape. cbn [fold_left].
  rewrite !replace_one_char.
  induction s as [|c s IH]; [reflexivity|].
  cbn [map_chars]. unfold content_entity at 1.
  destruct (Ascii.eqb_spec c "&") as [->|N1]; [simpl; now rewrite IH|].
  destruct (Ascii.eqb_spec c ">") as [->|N2]; [simpl; now rewrite IH|].
  destruct (Ascii.eqb_spec c "<") as [->|N3]; [simpl; now rewrite IH|].
  rewrite (replace_char_cons_neq "&") by exact N1.
  rewrite (replace_char_cons_neq ">") by exact N2.
  rewrite (replace_char_cons_neq "<") by exact N3.
  now rewrite IH.
Qed.

Lemma body_angle_free s : all_chars angle_free (map_chars content_entity s) = true.
Proof.
  induction s as [|c s IH]; [reflexivity|].
  cbn [map_chars]. unfold content_entity at 1.
  destruct (Ascii.eqb_spec c "&") as [->|N1]; [simpl; exact IH|].
  destruct (Ascii.eqb_spec c ">") as [->|N2]; [simpl; exact IH|].
  destruct (Ascii.eqb_spec c "<") as [->|N3]; [simpl; exact IH|].
  simpl. rewrite IH. unfold angle_free.
  apply Ascii.eqb_neq in N2, N3. now rewrite N2, N3.
Qed.

Lemma no_cdata_end x : all_chars angle_free x = true -> String.prefix "]]>" x = false.
Proof.
  intros H. destruct (String.prefix "]]>" x) eqn:E; [|reflexivity].
  apply prefix_true in E as [b ->]. simpl in H. discriminate.
Qed.

Lemma content_text_entity m :
  content_text 0 ("&amp;" ++ m) = read_char "&" (content_text 0 m) /\
  content_text 0 ("&gt;" ++ m) = read_char ">" (content_text 0 m) /\
  content_text 0 ("&lt;" ++ m) = read_char "<" (content_text 0 m).
Proof. destruct m; repeat split; reflexivity. Qed.

Lemma content_text_other c m :
  c <> "&"%char -> c <> "<"%char -> c <> ">"%char -> content_plain c = true ->
  all_chars angle_free m = true ->
  content_text 0 (String c m) = read_char c (content_text 0 m).
Proof.
  intros N1 N2 N3 Hc Hm. cbn [content_text].
  rewrite !(prefix_other_head "&") by exact N1.
  rewrite no_cdata_end.
  - unfold content_plain in Hc. apply andb_prop in Hc as [Hx Hcr].
    apply negb_true_iff in Hcr.
    rewrite (prefix_other_head CR)
      by (intros ->; rewrite Ascii.eqb_refl in Hcr; discriminate).
    apply Ascii.eqb_neq in N1, N2. now rewrite N1, N2, Hcr, Hx.
  - cbn [all_chars]. rewrite Hm. unfold angle_free.
    apply Ascii.eqb_neq in N2, N3. now rewrite N2, N3.
Qed.

Lemma content_text_escape s :
  all_chars content_plain s = true ->
  content_text 0 (map_chars content_entity s) = Some s.
Proof.
  induction s as [|c s IH]; [reflexivity|].
  cbn [all_chars map_chars]. intros H.
  apply andb_prop in H as [Hc Hs]. specialize (IH Hs).
  unfold content_entity at 1.
  destruct (content_text_entity (map_chars content_entity s)) as (E1 & E2 & E3).
  destruct (Ascii.eqb_spec c "&") as [->|N1]; [cbv iota; now rewrite E1, IH|].
  destruct (Ascii.eqb_spec c ">") as [->|N2]; [cbv iota; now rewrite E2, IH|].
  destruct (Ascii.eqb_spec c "<") as [->|N3]; [cbv iota; now rewrite E3, IH|].
  cbv iota.
  change (String c EmptyString ++ map_chars content_entity s)
    with (String c (map_chars content_entity s)).
  rewrite content_text_other; auto using body_angle_free. now rewrite IH.
Qed.

End Body.

(** X10: in the body of the failure element the detail has [&], [<] and
    [>] replaced by their entities and every other character, line
    feeds and double quotes too, written as it is; the body holds no
    [<] and no [>], and it stands on lines of its own. *)
Theorem X10_detail_is_escaped_for_the_body :
  forall (e : ErrorDescription),
    let body := escape (description e) [] in
    body = map_chars content_entity (description e)
    /\ all_chars angle_free body = true
    /\ exists before,
         testcase e = before ++ ">" ++ nl ++ body ++ nl
                      ++ "            </failure>" ++ nl ++ "        </testcase>".
Proof.
  intros e body.
  assert (Hb : body = map_chars content_entity (description e))
    by apply escape_body_map.
  split; [exact Hb|]. split; [rewrite Hb; apply body_angle_free|].
  exists (nl ++ "        <testcase " ++ attr "id" (testcase_id e)
          ++ " " ++ attr "name" (testcase_id e) ++ " " ++ attr "time" "0" ++ ">" ++ nl
          ++ "            <failure "
          ++ attr "message" (escape (error e) [(dq, "&quot;")])).
  unfold testcase. fold body. rewrite !append_assoc. reflexivity.
Qed.

(** X11: an XML parser reads the escaped detail back as it was, with
    its line feeds, tabs and quotes, when the detail holds characters
    of the XML range only and no carriage return. *)
Theorem X11_detail_is_read_back :
  forall (e : ErrorDescription),
    all_chars content_plain (description e) = true ->
    content_text 0 (escape (description e) []) = Some (description e).
Proof.
  intros e H. rewrite escape_body_map. now apply content_text_escape.
Qed.

Lemma X11_witness :
  all_chars content_plain (description quoted_record) = true /\
  content_text 0 (escape (description quoted_record) [])
    = Some (description quoted_record).
Proof.
  assert (H : all_chars content_plain (description quoted_record) = true)
    by (vm_compute; reflexivity).
  split; [exact H|]. exact (X11_detail_is_read_back quoted_record H).
Defined.

Section Decimal.









End Decimal.



Section Written.



End Written.


Section Details.

Variable self : ClangTidyConverter.
Variable seen : string -> Prop.



End Details.

